(** Shallow embedding of the [gecos] crate (src/lib.rs): the sanitized
    string type [GecosSanitizedString], the [Gecos] record, and the two
    conversions [Gecos::to_gecos_string] and [Gecos::from_gecos_string].

    Rust [String]s are modelled as Stdlib [string]s, characters as [ascii].
    A Rust panic (the [unwrap] in [to_gecos_string]) is modelled by [None]. *)

From Stdlib Require Import String Ascii List Bool Eqdep_dec Lia.
Import ListNotations.
Open Scope string_scope.

(** * Results and errors *)

Inductive result (A E : Type) : Type :=
| Ok (a : A)
| Err (e : E).
Arguments Ok {A E} a.
Arguments Err {A E} e.

(** [GecosError::IllegalPasswdChar(char)] *)
Inductive GecosError : Type :=
| IllegalPasswdChar (c : ascii).

(** * String helpers, as used by the Rust code *)

(** [str::contains(char)] *)
Fixpoint contains (s : string) (c : ascii) : bool :=
  match s with
  | EmptyString => false
  | String c' rest => Ascii.eqb c' c || contains rest c
  end.

(** [str::split(',')]: always at least one segment, empty segments kept. *)
Fixpoint split_comma (s : string) : list string :=
  match s with
  | EmptyString => [EmptyString]
  | String c rest =>
      let segs := split_comma rest in
      if Ascii.eqb c "," then EmptyString :: segs
      else match segs with
           | seg :: tl => String c seg :: tl
           | [] => [String c EmptyString]
           end
  end.

(** [<[String]>::join(",")] *)
Definition join (sep : string) (l : list string) : string :=
  String.concat sep l.
Arguments join sep l : simpl never.

(** * GecosSanitizedString *)

(** [const INVALID_CHARS]: comma, colon, equals sign, backslash (code 92),
    double quote (code 34) and newline (code 10), in this probe order. *)
Definition INVALID_CHARS : list ascii :=
  [","%char; ":"%char; "="%char; Ascii.ascii_of_nat 92; Ascii.ascii_of_nat 34;
   Ascii.ascii_of_nat 10].

(** The [for character in INVALID_CHARS { if value.contains(..) { return Err } }]
    loop of [GecosSanitizedString::new]: the first probed character that
    occurs in [value], if any. *)
Fixpoint probe (cs : list ascii) (value : string) : option ascii :=
  match cs with
  | [] => None
  | c :: cs' => if contains value c then Some c else probe cs' value
  end.

(** The struct field [str] is private and only set by [new], so every value
    carries the fact that the loop found no invalid character. *)
Record GecosSanitizedString : Type := mkGSS {
  str : string;
  str_valid : probe INVALID_CHARS str = None
}.

(** [GecosSanitizedString::new] *)
Definition new (value : string) : result GecosSanitizedString GecosError :=
  match probe INVALID_CHARS value as o
        return probe INVALID_CHARS value = o -> result GecosSanitizedString GecosError
  with
  | Some c => fun _ => Err (IllegalPasswdChar c)
  | None => fun H => Ok (mkGSS value H)
  end eq_refl.

(** [impl Display for GecosSanitizedString] (and [.to_string()]) *)
Definition to_string (v : GecosSanitizedString) : string := str v.

(** * Gecos *)

Record Gecos : Type := mkGecos {
  full_name : option GecosSanitizedString;
  room : option GecosSanitizedString;
  work_phone : option GecosSanitizedString;
  home_phone : option GecosSanitizedString;
  other : list GecosSanitizedString
}.

(** [Result::unwrap]: [None] stands for a panic. *)
Definition unwrap {A E} (r : result A E) : option A :=
  match r with Ok a => Some a | Err _ => None end.

(** [Option::unwrap_or] *)
Definition unwrap_or {A} (o : option A) (d : A) : A :=
  match o with Some a => a | None => d end.

(** [format!("{},{},{},{},{}", a, b, c, d, e)] *)
Definition format5 (a b c d e : string) : string :=
  a ++ "," ++ b ++ "," ++ c ++ "," ++ d ++ "," ++ e.

(** [Gecos::to_gecos_string]. The default value of [unwrap_or], the empty
    string converted with [try_into().unwrap()], is evaluated eagerly for
    each of the four fixed slots. *)
Definition to_gecos_string (g : Gecos) : option string :=
  let gecos_element_to_string (sts : option GecosSanitizedString)
      : option GecosSanitizedString :=
    match unwrap (new EmptyString) with
    | Some dflt => Some (unwrap_or sts dflt)
    | None => None
    end in
  match gecos_element_to_string (full_name g),
        gecos_element_to_string (room g),
        gecos_element_to_string (work_phone g),
        gecos_element_to_string (home_phone g) with
  | Some a, Some b, Some c, Some d =>
      Some (format5 (to_string a) (to_string b) (to_string c) (to_string d)
              (join "," (map str (other g))))
  | _, _, _, _ => None
  end.

(** The lazy iterator [input.split(',').map(|val| val.to_string().try_into())]
    is its list of pending segments; [next] validates the segment it yields. *)
Definition next (it : list string)
  : option (result GecosSanitizedString GecosError) * list string :=
  match it with
  | [] => (None, [])
  | x :: tl => (Some (new x), tl)
  end.

(** [collect::<Result<Vec<_>, _>>()]: stops at the first [Err]. *)
Fixpoint collect (it : list string) : result (list GecosSanitizedString) GecosError :=
  match it with
  | [] => Ok []
  | x :: tl =>
      match new x with
      | Err e => Err e
      | Ok v =>
          match collect tl with
          | Ok vs => Ok (v :: vs)
          | Err e => Err e
          end
      end
  end.

(** The macro [gecos_string_element_to_gecos_object_element!]; [Err] stands
    for its early [return Err(err)]. *)
Definition gecos_string_element_to_gecos_object_element
  (o : option (result GecosSanitizedString GecosError))
  : result (option GecosSanitizedString) GecosError :=
  match o with
  | Some option_val =>
      match option_val with
      | Ok val => Ok (if String.eqb (to_string val) EmptyString then None else Some val)
      | Err err => Err err
      end
  | None => Ok None
  end.

Notation "x <- a ;; b" :=
  (match a with Ok x => b | Err e => Err e end)
  (at level 60, right associativity).

(** [Gecos::from_gecos_string]: fields are evaluated in source order. *)
Definition from_gecos_string (input : string) : result Gecos GecosError :=
  let splitted := split_comma input in
  let '(n1, splitted) := next splitted in
  full_name <- gecos_string_element_to_gecos_object_element n1 ;;
  let '(n2, splitted) := next splitted in
  room <- gecos_string_element_to_gecos_object_element n2 ;;
  let '(n3, splitted) := next splitted in
  work_phone <- gecos_string_element_to_gecos_object_element n3 ;;
  let '(n4, splitted) := next splitted in
  home_phone <- gecos_string_element_to_gecos_object_element n4 ;;
  other <- collect splitted ;;
  Ok (mkGecos full_name room work_phone home_phone other).

(** Observation of a parse result through the rendered strings. *)
Definition view (r : result Gecos GecosError)
  : result (option string * option string * option string * option string * list string)
           GecosError :=
  match r with
  | Ok g => Ok (option_map str (full_name g), option_map str (room g),
                option_map str (work_phone g), option_map str (home_phone g),
                map str (other g))
  | Err e => Err e
  end.

(** The second documentation example of [from_gecos_string]. *)
Example from_gecos_string_doc_example : view (from_gecos_string "Some Person,,,Home phone,Other")
  = Ok (Some "Some Person", None, None, Some "Home phone", ["Other"]).
Proof. reflexivity. Qed.


(** The segment a fixed slot is read from, as the spec describes it: absent
    when the input ran out, absent when empty, the segment otherwise. *)
Definition expected_slot (seg : option string) : option string :=
  match seg with
  | None => None
  | Some x => if String.eqb x EmptyString then None else Some x
  end.

(** The text [to_gecos_string] writes for a fixed slot. *)
Definition slot_text (o : option GecosSanitizedString) : string :=
  match o with None => EmptyString | Some v => to_string v end.

(** Number of occurrences of a character. *)
Fixpoint count_char (c : ascii) (s : string) : nat :=
  match s with
  | EmptyString => 0
  | String c' rest => (if Ascii.eqb c' c then 1 else 0) + count_char c rest
  end.

(** The spec's reading of the error character: the leftmost character of the
    input that belongs to the forbidden set. *)
Fixpoint spec_leftmost_forbidden (s : string) : option ascii :=
  match s with
  | EmptyString => None
  | String c rest =>
      if existsb (Ascii.eqb c) INVALID_CHARS then Some c
      else spec_leftmost_forbidden rest
  end.

(** The sanitized empty string. *)
Definition empty_gss : GecosSanitizedString := mkGSS EmptyString eq_refl.

(** The record of the second documentation example of [from_gecos_string]. *)
Definition sample_record : Gecos :=
  mkGecos (Some (mkGSS "Some Person" eq_refl)) None None
          (Some (mkGSS "Home phone" eq_refl)) [mkGSS "Other" eq_refl].

(** The record parsed from [",b,,,e,"]. *)
Definition sample_trailing_record : Gecos :=
  mkGecos None (Some (mkGSS "b" eq_refl)) None None
          [mkGSS "e" eq_refl; mkGSS EmptyString eq_refl].

(** The record of the second documentation example of [Gecos]. *)
Definition doc_record : Gecos :=
  mkGecos (Some (mkGSS "Test Name" eq_refl)) None None None
          [mkGSS "Some info" eq_refl; mkGSS "More info" eq_refl].

(** * The remaining trait implementations of [GecosSanitizedString] *)

(** [impl TryFrom<String> for GecosSanitizedString]: [Self::new(value)]. *)
Definition try_from (value : string) : result GecosSanitizedString GecosError :=
  new value.

(** [impl From<&GecosSanitizedString> for &String]: the inner [str]. *)
Definition as_string_ref (value : GecosSanitizedString) : string := str value.

(** [impl PartialEq for GecosSanitizedString]: [self.str == other.str]. *)
Definition gss_eqb (self other : GecosSanitizedString) : bool :=
  String.eqb (str self) (str other).

(** A run of [n] commas. *)
Fixpoint commas (n : nat) : string :=
  match n with
  | O => EmptyString
  | S n' => String "," (commas n')
  end.

(** The characters of [INVALID_CHARS] other than the comma. *)
Definition NON_COMMA_INVALID_CHARS : list ascii := tl INVALID_CHARS.

(** The record parsed from ["Some Person"]. *)
Definition single_name_record : Gecos :=
  mkGecos (Some (mkGSS "Some Person" eq_refl)) None None None [].

(** * Lemmas on [new] *)

Lemma new_convoy s (o : option ascii) (E : probe INVALID_CHARS s = o) :
  new s = match o as o' return probe INVALID_CHARS s = o' ->
                               result GecosSanitizedString GecosError with
          | Some c => fun _ => Err (IllegalPasswdChar c)
          | None => fun H => Ok (mkGSS s H)
          end E.
Proof. subst o. reflexivity. Qed.

Lemma new_some s c :
  probe INVALID_CHARS s = Some c -> new s = Err (IllegalPasswdChar c).
Proof. intros H. rewrite (new_convoy s _ H). reflexivity. Qed.

Lemma new_none s (H : probe INVALID_CHARS s = None) : new s = Ok (mkGSS s H).
Proof. rewrite (new_convoy s _ H). reflexivity. Qed.

Lemma gss_eq (a b : GecosSanitizedString) : str a = str b -> a = b.
Proof.
  destruct a as [sa Ha], b as [sb Hb]; simpl; intros ->.
  f_equal. apply UIP_dec.
  decide equality. apply ascii_dec.
Qed.

Lemma new_str v : new (str v) = Ok v.
Proof.
  rewrite (new_none _ (str_valid v)). f_equal. now apply gss_eq.
Qed.

Lemma new_ok s v : new s = Ok v -> str v = s.
Proof.
  destruct (probe INVALID_CHARS s) eqn:E.
  - rewrite (new_some _ _ E). discriminate.
  - rewrite (new_none _ E). intros H. injection H as <-. reflexivity.
Qed.

Lemma new_err s e : new s = Err e -> probe INVALID_CHARS s = Some (match e with IllegalPasswdChar c => c end).
Proof.
  destruct (probe INVALID_CHARS s) eqn:E.
  - rewrite (new_some _ _ E). intros H. injection H as <-. reflexivity.
  - rewrite (new_none _ E). discriminate.
Qed.

Lemma new_empty : new EmptyString = Ok empty_gss.
Proof. reflexivity. Qed.

(** * Lemmas on [probe] *)

Lemma probe_none_iff cs s :
  probe cs s = None <-> forall c, In c cs -> contains s c = false.
Proof.
  induction cs as [|c cs IH]; simpl.
  - split; [intros _ c []| reflexivity].
  - destruct (contains s c) eqn:E.
    + split; [discriminate|]. intros H. rewrite (H c (or_introl eq_refl)) in E. discriminate.
    + rewrite IH. split.
      * intros H d [<-|Hd]; auto.
      * intros H d Hd; auto.
Qed.

Lemma probe_some_iff cs s c :
  probe cs s = Some c <->
  exists pre post, cs = (pre ++ c :: post)%list /\ contains s c = true /\
                   forall d, In d pre -> contains s d = false.
Proof.
  induction cs as [|c' cs IH]; simpl.
  - split; [discriminate|]. intros (pre & post & H & _). destruct pre; discriminate.
  - destruct (contains s c') eqn:E.
    + split.
      * intros H. injection H as <-. exists [], cs. repeat split; auto. intros d [].
      * intros (pre & post & Hcs & Hc & Hpre). destruct pre as [|p pre].
        -- injection Hcs as -> _. reflexivity.
        -- injection Hcs as -> _. rewrite (Hpre p (or_introl eq_refl)) in E. discriminate.
    + rewrite IH. split.
      * intros (pre & post & -> & Hc & Hpre). exists (c' :: pre), post. simpl.
        repeat split; auto. intros d [<-|Hd]; auto.
      * intros (pre & post & Hcs & Hc & Hpre). destruct pre as [|p pre].
        -- injection Hcs as -> _. rewrite Hc in E. discriminate.
        -- injection Hcs as -> Hcs. exists pre, post. repeat split; auto.
           intros d Hd. apply Hpre. now right.
Qed.

Lemma probe_some_in cs s c : probe cs s = Some c -> In c cs /\ contains s c = true.
Proof.
  rewrite probe_some_iff. intros (pre & post & -> & Hc & _).
  split; auto. apply in_or_app. right. now left.
Qed.

Lemma valid_no_comma v : contains (str v) "," = false.
Proof.
  pose proof (str_valid v) as H. rewrite probe_none_iff in H.
  apply H. now left.
Qed.

(** * Lemmas on splitting and joining *)

Lemma split_comma_nonempty s : split_comma s <> [].
Proof.
  destruct s as [|c rest]; simpl; [discriminate|].
  destruct (Ascii.eqb c ","); [discriminate|].
  destruct (split_comma rest); discriminate.
Qed.

Lemma split_comma_length s : length (split_comma s) = S (count_char "," s).
Proof.
  induction s as [|c rest IH]; simpl; [reflexivity|].
  destruct (Ascii.eqb c ",") eqn:E; simpl.
  - now rewrite IH.
  - destruct (split_comma rest) eqn:Hs; simpl in *; [discriminate|]. exact IH.
Qed.

Lemma join_cons x y l : join "," (x :: y :: l) = x ++ "," ++ join "," (y :: l).
Proof. reflexivity. Qed.

Lemma join_split_comma s : join "," (split_comma s) = s.
Proof.
  induction s as [|c rest IH]; simpl; [reflexivity|].
  destruct (Ascii.eqb c ",") eqn:E.
  - apply Ascii.eqb_eq in E. subst c.
    destruct (split_comma rest) as [|y l] eqn:Hs.
    + exfalso. exact (split_comma_nonempty rest Hs).
    + rewrite join_cons. simpl. now rewrite IH.
  - destruct (split_comma rest) as [|y l] eqn:Hs.
    + exfalso. exact (split_comma_nonempty rest Hs).
    + rewrite <- IH. destruct l; reflexivity.
Qed.

Lemma split_comma_segments s seg : In seg (split_comma s) -> contains seg "," = false.
Proof.
  revert seg. induction s as [|c rest IH]; simpl; intros seg.
  - intros [<-|[]]. reflexivity.
  - destruct (Ascii.eqb c ",") eqn:E.
    + intros [<-|H]; [reflexivity|]. now apply IH.
    + destruct (split_comma rest) as [|y l] eqn:Hs.
      * exfalso. exact (split_comma_nonempty rest Hs).
      * intros [<-|H].
        -- simpl. rewrite E. apply IH. now left.
        -- apply IH. now right.
Qed.

Lemma split_comma_no_comma a : contains a "," = false -> split_comma a = [a].
Proof.
  induction a as [|c rest IH]; simpl; [reflexivity|].
  intros H. apply orb_false_iff in H as [Hc Hr].
  rewrite Hc, (IH Hr). reflexivity.
Qed.

Lemma split_comma_app a s :
  contains a "," = false -> split_comma (a ++ String "," s) = a :: split_comma s.
Proof.
  induction a as [|c rest IH]; simpl; [reflexivity|].
  intros H. apply orb_false_iff in H as [Hc Hr].
  rewrite Hc, (IH Hr). reflexivity.
Qed.

Lemma split_comma_join l :
  l <> [] -> Forall (fun x => contains x "," = false) l ->
  split_comma (join "," l) = l.
Proof.
  induction l as [|x l IH]; [congruence|]. intros _ Hall.
  inversion Hall as [|? ? Hx Hl]; subst.
  destruct l as [|y l].
  - simpl. now apply split_comma_no_comma.
  - rewrite join_cons. cbn [append]. rewrite split_comma_app by exact Hx.
    rewrite IH by (discriminate || exact Hl). reflexivity.
Qed.

Lemma split_comma_snoc s : split_comma (s ++ ",") = (split_comma s ++ [EmptyString])%list.
Proof.
  induction s as [|c rest IH]; simpl; [reflexivity|].
  rewrite IH. destruct (Ascii.eqb c ","); [reflexivity|].
  destruct (split_comma rest) as [|y l] eqn:Hs.
  - exfalso. exact (split_comma_nonempty rest Hs).
  - reflexivity.
Qed.

(** * Lemmas on [collect] *)

Lemma collect_ok l vs : collect l = Ok vs -> map str vs = l.
Proof.
  revert vs. induction l as [|x l IH]; simpl; intros vs.
  - intros H. injection H as <-. reflexivity.
  - destruct (new x) as [v|e] eqn:Hx; [|discriminate].
    destruct (collect l) as [ws|e] eqn:Hl; [|discriminate].
    intros H. injection H as <-. simpl. rewrite (new_ok _ _ Hx), (IH ws eq_refl).
    reflexivity.
Qed.

Lemma collect_map_str vs : collect (map str vs) = Ok vs.
Proof.
  induction vs as [|v vs IH]; simpl; [reflexivity|].
  now rewrite new_str, IH.
Qed.

Lemma collect_app l x :
  collect (l ++ [x])%list =
  match collect l with
  | Ok vs => match new x with Ok v => Ok (vs ++ [v])%list | Err e => Err e end
  | Err e => Err e
  end.
Proof.
  induction l as [|y l IH]; simpl.
  - destruct (new x); reflexivity.
  - destruct (new y); [|reflexivity]. rewrite IH.
    destruct (collect l); [|reflexivity]. destruct (new x); reflexivity.
Qed.

Lemma collect_err_iff l :
  (exists e, collect l = Err e) <-> exists x, In x l /\ exists e, new x = Err e.
Proof.
  induction l as [|x l IH]; simpl.
  - split; [intros [e H]; discriminate | intros (x & [] & _)].
  - destruct (new x) as [v|e] eqn:Hx.
    + destruct (collect l) as [vs|e] eqn:Hl.
      * split; [intros [e H]; discriminate|].
        intros (y & [<-|Hy] & He); [rewrite Hx in He; destruct He; discriminate|].
        destruct IH as [_ IH]. destruct (IH (ex_intro _ y (conj Hy He))). discriminate.
      * split; [|eauto]. intros _. destruct IH as [IH _]. destruct (IH (ex_intro _ e eq_refl)) as (y & Hy & He).
        eauto.
    + split; eauto.
Qed.

(** * Lemmas on the two conversions *)

Lemma to_gecos_string_eq g :
  to_gecos_string g =
  Some (format5 (slot_text (full_name g)) (slot_text (room g))
                (slot_text (work_phone g)) (slot_text (home_phone g))
                (join "," (map str (other g)))).
Proof. destruct g as [[] [] [] [] o]; reflexivity. Qed.

Ltac case_new H :=
  repeat match type of H with
  | context [new ?x] =>
      let E := fresh "E" in
      destruct (new x) as [?v|?e] eqn:E; [|discriminate H]
  | context [collect ?l] =>
      let E := fresh "E" in
      destruct (collect l) as [?vs|?e] eqn:E; [|discriminate H]
  end.

Lemma slot_of_new x v :
  new x = Ok v ->
  option_map str (if String.eqb (to_string v) EmptyString then None else Some v) =
  expected_slot (Some x).
Proof.
  intros Hx. pose proof (new_ok _ _ Hx) as Hv. unfold to_string. rewrite Hv.
  simpl. destruct (String.eqb x EmptyString); simpl; congruence.
Qed.

(** What a successful parse is made of, segment by segment. *)
Lemma from_gecos_string_ok s g :
  from_gecos_string s = Ok g ->
  option_map str (full_name g) = expected_slot (nth_error (split_comma s) 0) /\
  option_map str (room g) = expected_slot (nth_error (split_comma s) 1) /\
  option_map str (work_phone g) = expected_slot (nth_error (split_comma s) 2) /\
  option_map str (home_phone g) = expected_slot (nth_error (split_comma s) 3) /\
  map str (other g) = skipn 4 (split_comma s).
Proof.
  unfold from_gecos_string. generalize (split_comma s) as l. intros l H.
  destruct l as [|a [|b [|c [|d tl]]]]; simpl in H; case_new H;
    injection H as <-; simpl;
    repeat match goal with
    | E : new ?x = Ok ?v |- _ => rewrite (slot_of_new x v E); clear E
    | E : collect ?l = Ok ?vs |- _ => rewrite (collect_ok l vs E); clear E
    end; repeat split.
Qed.

Ltac err_dir :=
  match goal with
  | |- (exists e, Ok _ = Err e) -> _ => intros [? ?]; discriminate
  | E : new ?x = Err ?e |- (exists _, Err _ = Err _) -> _ =>
      intros _; exists x; split; [simpl; tauto | eauto]
  | |- (exists seg, _) -> exists _, Err _ = Err _ => intros _; eauto
  | |- (exists seg, _) -> exists _, Ok _ = Err _ =>
      intros (x & Hx & e & He); simpl in Hx; intuition (subst; congruence)
  end.

(** Parsing fails exactly when some segment fails validation. *)
Lemma from_gecos_string_err_iff s :
  (exists e, from_gecos_string s = Err e) <->
  exists seg, In seg (split_comma s) /\ exists e, new seg = Err e.
Proof.
  unfold from_gecos_string. generalize (split_comma s) as l. intros l.
  destruct l as [|a [|b [|c [|d tl]]]]; simpl;
    repeat match goal with
    | |- context [new ?x] => let E := fresh "E" in destruct (new x) eqn:E
    end;
    try solve [split; err_dir].
  pose proof (collect_err_iff tl) as Htl.
  destruct (collect tl) as [vs|e] eqn:Et.
  + split; [intros [e H]; discriminate|].
    intros (x & [<-|[<-|[<-|[<-|Hx]]]] & e & He); try congruence.
    destruct Htl as [_ Htl]. destruct (Htl (ex_intro _ x (conj Hx (ex_intro _ e He)))).
    discriminate.
  + split; [|eauto]. intros _. destruct Htl as [Htl _].
    destruct (Htl (ex_intro _ e eq_refl)) as (x & Hx & He). exists x.
    split; [right; right; right; right; exact Hx | exact He].
Qed.

Lemma new_err_iff_forbidden seg :
  (exists e, new seg = Err e) <->
  exists c, In c INVALID_CHARS /\ contains seg c = true.
Proof.
  split.
  - intros [e He]. apply new_err, probe_some_in in He. eexists; exact He.
  - intros (c & Hc & Hs). destruct (probe INVALID_CHARS seg) as [d|] eqn:E.
    + exists (IllegalPasswdChar d). now apply new_some.
    + rewrite probe_none_iff in E. rewrite (E c Hc) in Hs. discriminate.
Qed.

Lemma format5_join a b c d l :
  format5 a b c d (join "," l) =
  join "," (a :: b :: c :: d :: match l with [] => [EmptyString] | _ => l end).
Proof. destruct l; reflexivity. Qed.

Lemma slot_text_no_comma o : contains (slot_text o) "," = false.
Proof. destruct o as [v|]; [apply valid_no_comma | reflexivity]. Qed.

Lemma slot_text_expected o x :
  option_map str o = expected_slot (Some x) -> slot_text o = x.
Proof.
  simpl. destruct (String.eqb x EmptyString) eqn:E; destruct o as [v|]; simpl;
    try discriminate.
  - symmetry. now apply String.eqb_eq.
  - intros H. injection H as <-. reflexivity.
Qed.

Lemma parse_slot_text o :
  (forall v, o = Some v -> str v <> EmptyString) ->
  gecos_string_element_to_gecos_object_element (Some (new (slot_text o))) = Ok o.
Proof.
  intros Ho. destruct o as [v|]; simpl.
  - rewrite new_str. unfold to_string.
    destruct (String.eqb (str v) EmptyString) eqn:E; [|reflexivity].
    apply String.eqb_eq in E. destruct (Ho v eq_refl E).
  - reflexivity.
Qed.

(** * Claims *)

(** C7: [to_gecos_string] never fails (the [unwrap] of the empty default
    never panics) and writes the four fixed slots, empty when absent, then
    the [other] elements joined by commas; the empty record gives four
    commas. *)
Theorem to_gecos_string_shape :
  (forall g, to_gecos_string g =
     Some (slot_text (full_name g) ++ "," ++ slot_text (room g) ++ "," ++
           slot_text (work_phone g) ++ "," ++ slot_text (home_phone g) ++ "," ++
           join "," (map to_string (other g)))) /\
  to_gecos_string (mkGecos None None None None []) = Some ",,,,".
Proof.
  split; [|reflexivity].
  intros g. rewrite to_gecos_string_eq. reflexivity.
Qed.

(** C8: a string free of the six forbidden characters is accepted by [new],
    and its rendering is the string itself, unchanged. *)
Theorem new_accepts_and_renders_identically (s : string)
  (Hfree : forall c, In c INVALID_CHARS -> contains s c = false) :
  exists v, new s = Ok v /\ to_string v = s.
Proof.
  apply probe_none_iff in Hfree.
  exists (mkGSS s Hfree). split; [apply new_none | reflexivity].
Qed.

Lemma new_accepts_and_renders_identically_witness :
  (forall c, In c INVALID_CHARS -> contains "  Mixed Case  " c = false) /\
  exists v, new "  Mixed Case  " = Ok v /\ to_string v = "  Mixed Case  ".
Proof.
  assert (H : forall c, In c INVALID_CHARS -> contains "  Mixed Case  " c = false)
    by (apply probe_none_iff; reflexivity).
  split; [exact H | apply (new_accepts_and_renders_identically _ H)].
Defined.

(** C10: the character reported by [new] is the first one, in the probe
    order comma, colon, equals, backslash, quote, newline, that occurs
    anywhere in the input; so [":x,"] is rejected with the comma. *)
Theorem new_error_follows_probe_order :
  (forall s c,
     new s = Err (IllegalPasswdChar c) <->
     exists pre post, INVALID_CHARS = (pre ++ c :: post)%list /\
                      contains s c = true /\
                      forall d, In d pre -> contains s d = false) /\
  new ":x," = Err (IllegalPasswdChar ",").
Proof.
  split; [|reflexivity].
  intros s c. rewrite <- probe_some_iff. split.
  - intros H. apply new_err in H. exact H.
  - apply new_some.
Qed.

(** C2 (as stated): the reported character would be the leftmost forbidden
    character of the input. It is not: on [":x,"] the leftmost one is the
    colon, but [new] reports the comma. *)
Lemma new_error_not_leftmost :
  ~ (forall s c, spec_leftmost_forbidden s = Some c ->
                 new s = Err (IllegalPasswdChar c)).
Proof.
  intros H. specialize (H ":x," ":"%char eq_refl).
  vm_compute in H. discriminate H.
Qed.

(** C2 (amended): a string holding a forbidden character is rejected, and
    the reported character is a forbidden character occurring in it, namely
    the first character of the probe list that occurs in it (every probe
    before it is absent from the string); not necessarily the leftmost. *)
Theorem new_rejects_forbidden (s : string)
  (Hbad : exists c, In c INVALID_CHARS /\ contains s c = true) :
  exists c, new s = Err (IllegalPasswdChar c) /\
            In c INVALID_CHARS /\ contains s c = true /\
            exists pre post, INVALID_CHARS = (pre ++ c :: post)%list /\
                             forall d, In d pre -> contains s d = false.
Proof.
  apply new_err_iff_forbidden in Hbad as [[c] He].
  exists c. split; [exact He|].
  apply new_err in He. change (probe INVALID_CHARS s = Some c) in He.
  pose proof (probe_some_in _ _ _ He) as [Hin Hc].
  apply probe_some_iff in He as (pre & post & Hcs & _ & Hpre).
  repeat split; [exact Hin | exact Hc |]. exists pre, post. auto.
Qed.

Lemma new_rejects_forbidden_witness :
  (exists c, In c INVALID_CHARS /\ contains ":x," c = true) /\
  exists c, new ":x," = Err (IllegalPasswdChar c) /\
            In c INVALID_CHARS /\ contains ":x," c = true /\
            exists pre post, INVALID_CHARS = (pre ++ c :: post)%list /\
                             forall d, In d pre -> contains ":x," d = false.
Proof.
  assert (H : exists c, In c INVALID_CHARS /\ contains ":x," c = true)
    by (exists ":"%char; split; [simpl; tauto | reflexivity]).
  split; [exact H | apply (new_rejects_forbidden _ H)].
Defined.

(** C3: the first four comma-separated segments fill [full_name], [room],
    [work_phone] and [home_phone] in this order; a slot is absent when the
    input ran out of segments or when its segment is empty. A single segment
    sets only [full_name]. *)
Theorem from_gecos_string_fixed_slots (s : string) (g : Gecos)
  (Hok : from_gecos_string s = Ok g) :
  (option_map str (full_name g) = expected_slot (nth_error (split_comma s) 0) /\
   option_map str (room g) = expected_slot (nth_error (split_comma s) 1) /\
   option_map str (work_phone g) = expected_slot (nth_error (split_comma s) 2) /\
   option_map str (home_phone g) = expected_slot (nth_error (split_comma s) 3)) /\
  view (from_gecos_string "Some Person") =
    Ok (Some "Some Person", None, None, None, []).
Proof.
  split; [|reflexivity].
  destruct (from_gecos_string_ok s g Hok) as (H1 & H2 & H3 & H4 & _).
  auto.
Qed.

Lemma from_gecos_string_fixed_slots_witness :
  from_gecos_string "Some Person,,,Home phone,Other" = Ok sample_record /\
  (option_map str (full_name sample_record) =
     expected_slot (nth_error (split_comma "Some Person,,,Home phone,Other") 0) /\
   option_map str (room sample_record) =
     expected_slot (nth_error (split_comma "Some Person,,,Home phone,Other") 1) /\
   option_map str (work_phone sample_record) =
     expected_slot (nth_error (split_comma "Some Person,,,Home phone,Other") 2) /\
   option_map str (home_phone sample_record) =
     expected_slot (nth_error (split_comma "Some Person,,,Home phone,Other") 3)) /\
  view (from_gecos_string "Some Person") =
    Ok (Some "Some Person", None, None, None, []).
Proof.
  split; [reflexivity|].
  apply (from_gecos_string_fixed_slots _ sample_record). reflexivity.
Defined.

(** C4 (as stated): parsing ["Some Person,,,,"] would give an empty [other]
    list. It does not: the fifth, empty segment is kept in [other]. *)
Lemma from_some_person_other_not_empty :
  ~ (exists g, from_gecos_string "Some Person,,,," = Ok g /\
               option_map str (full_name g) = Some "Some Person" /\
               room g = None /\ work_phone g = None /\ home_phone g = None /\
               other g = []).
Proof.
  intros (g & H & _ & _ & _ & _ & Ho).
  vm_compute in H. injection H as <-. discriminate Ho.
Qed.

(** C4 (amended): parsing ["Some Person,,,,"] succeeds with [full_name] set,
    the three other fixed slots absent, and [other] holding one empty
    element. *)
Theorem from_some_person_four_commas :
  view (from_gecos_string "Some Person,,,,") =
    Ok (Some "Some Person", None, None, None, [EmptyString]).
Proof. reflexivity. Qed.

(** C5: the segments after the fourth become [other] one by one, empty ones
    included; and when [other] is non-empty, one more comma at the end of the
    input adds one empty element at the end of [other], the rest unchanged. *)
Theorem from_gecos_string_trailing_comma (s : string) (g : Gecos)
  (Hok : from_gecos_string s = Ok g) (Hother : other g <> []) :
  map str (other g) = skipn 4 (split_comma s) /\
  exists g', from_gecos_string (s ++ ",") = Ok g' /\
             full_name g' = full_name g /\ room g' = room g /\
             work_phone g' = work_phone g /\ home_phone g' = home_phone g /\
             other g' = (other g ++ [empty_gss])%list.
Proof.
  split; [apply (from_gecos_string_ok s g Hok)|].
  unfold from_gecos_string in *. rewrite split_comma_snoc.
  destruct (split_comma s) as [|a [|b [|c [|d [|e tl]]]]];
    simpl in Hok; case_new Hok; injection Hok as <-; simpl in Hother;
    try congruence.
  simpl. rewrite E, E0, E1, E2, E3, collect_app, E4, new_empty.
  eexists; split; [reflexivity|]. simpl. repeat split.
Qed.

Lemma from_gecos_string_trailing_comma_witness :
  from_gecos_string ",b,,,e," = Ok sample_trailing_record /\
  other sample_trailing_record <> [] /\
  (map str (other sample_trailing_record) = skipn 4 (split_comma ",b,,,e,") /\
   exists g', from_gecos_string (",b,,,e," ++ ",") = Ok g' /\
              full_name g' = full_name sample_trailing_record /\
              room g' = room sample_trailing_record /\
              work_phone g' = work_phone sample_trailing_record /\
              home_phone g' = home_phone sample_trailing_record /\
              other g' = (other sample_trailing_record ++ [empty_gss])%list).
Proof.
  assert (Hok : from_gecos_string ",b,,,e," = Ok sample_trailing_record)
    by reflexivity.
  assert (Hne : other sample_trailing_record <> []) by discriminate.
  split; [exact Hok|]. split; [exact Hne|].
  exact (from_gecos_string_trailing_comma _ _ Hok Hne).
Defined.

(** C6: parsing fails exactly when some comma-separated segment holds a
    forbidden character; a failure is an [Err], with no record at all. On
    ["a,:,c,d,e"] it fails with the colon. *)
Theorem from_gecos_string_fails_iff_forbidden :
  (forall s,
     (exists e, from_gecos_string s = Err e) <->
     exists seg c, In seg (split_comma s) /\ In c INVALID_CHARS /\
                   contains seg c = true) /\
  from_gecos_string "a,:,c,d,e" = Err (IllegalPasswdChar ":").
Proof.
  split; [|reflexivity].
  intros s. rewrite from_gecos_string_err_iff. split.
  - intros (seg & Hin & He). apply new_err_iff_forbidden in He as (c & Hc & Hs).
    eauto.
  - intros (seg & c & Hin & Hc & Hs). exists seg. split; [exact Hin|].
    apply new_err_iff_forbidden. eauto.
Qed.

(** C9: when the input has at least four commas and parses, writing the
    parsed record back gives the input again. *)
Theorem from_then_to_gecos_string (s : string) (g : Gecos)
  (Hcommas : count_char "," s >= 4) (Hok : from_gecos_string s = Ok g) :
  to_gecos_string g = Some s.
Proof.
  rewrite to_gecos_string_eq. f_equal.
  destruct (from_gecos_string_ok s g Hok) as (H1 & H2 & H3 & H4 & H5).
  rewrite <- (join_split_comma s).
  pose proof (split_comma_length s) as Hlen.
  destruct (split_comma s) as [|a [|b [|c [|d [|e tl]]]]];
    simpl in Hlen; try (exfalso; lia).
  simpl in H1, H2, H3, H4, H5. rewrite H5.
  rewrite (slot_text_expected _ _ H1), (slot_text_expected _ _ H2),
          (slot_text_expected _ _ H3), (slot_text_expected _ _ H4).
  apply format5_join.
Qed.

Lemma from_then_to_gecos_string_witness :
  count_char "," ",b,,,e," >= 4 /\
  from_gecos_string ",b,,,e," = Ok sample_trailing_record /\
  to_gecos_string sample_trailing_record = Some ",b,,,e,".
Proof.
  assert (Hc : count_char "," ",b,,,e," >= 4) by (simpl; lia).
  assert (Hok : from_gecos_string ",b,,,e," = Ok sample_trailing_record)
    by reflexivity.
  split; [exact Hc|]. split; [exact Hok|].
  exact (from_then_to_gecos_string _ _ Hc Hok).
Defined.

(** C1 (as stated): the record with every slot absent and an empty [other]
    is written as four commas, which parses back with one empty element in
    [other]: the round trip does not give the record back. *)
Lemma to_then_from_empty_other :
  ~ (exists s, to_gecos_string (mkGecos None None None None []) = Some s /\
               from_gecos_string s = Ok (mkGecos None None None None [])).
Proof.
  intros (s & Ht & Hf). vm_compute in Ht. injection Ht as <-.
  vm_compute in Hf. injection Hf as Ho. discriminate Ho.
Qed.

(** C1 (amended): when no fixed slot holds an empty string, writing a record
    and parsing the result gives the record back, except that an empty
    [other] list comes back as a list with one empty element. *)
Theorem to_then_from_gecos_string (g : Gecos)
  (Hfn : forall v, full_name g = Some v -> str v <> EmptyString)
  (Hrm : forall v, room g = Some v -> str v <> EmptyString)
  (Hwp : forall v, work_phone g = Some v -> str v <> EmptyString)
  (Hhp : forall v, home_phone g = Some v -> str v <> EmptyString) :
  exists s, to_gecos_string g = Some s /\
            from_gecos_string s =
              Ok (mkGecos (full_name g) (room g) (work_phone g) (home_phone g)
                          match other g with [] => [empty_gss] | o => o end).
Proof.
  eexists; split; [apply to_gecos_string_eq|].
  rewrite format5_join. unfold from_gecos_string.
  rewrite split_comma_join.
  2: discriminate.
  2: { repeat constructor; try apply slot_text_no_comma.
       destruct (other g) as [|v o]; [repeat constructor|].
       apply Forall_forall. intros x Hx. apply in_map_iff in Hx as (w & <- & _).
       apply valid_no_comma. }
  cbn [next]. rewrite !parse_slot_text by assumption.
  destruct (other g) as [|v o] eqn:Ho; [reflexivity|].
  simpl. rewrite new_str, collect_map_str. reflexivity.
Qed.

Lemma to_then_from_gecos_string_witness :
  exists s, to_gecos_string doc_record = Some s /\
            from_gecos_string s =
              Ok (mkGecos (full_name doc_record) (room doc_record)
                          (work_phone doc_record) (home_phone doc_record)
                          match other doc_record with
                          | [] => [empty_gss] | o => o end).
Proof.
  apply to_then_from_gecos_string; simpl; intros v Hv;
    try discriminate Hv.
  injection Hv as <-. simpl. discriminate.
Defined.

(** * Further lemmas on strings *)

Lemma str_app_assoc (a b c : string) : (a ++ b) ++ c = a ++ (b ++ c).
Proof. induction a as [|x a IH]; simpl; [reflexivity | now rewrite IH]. Qed.

Lemma contains_cons x t c : contains (String x t) c = Ascii.eqb x c || contains t c.
Proof. reflexivity. Qed.

Lemma contains_app a b c : contains (a ++ b) c = contains a c || contains b c.
Proof.
  induction a as [|x a IH]; simpl; [reflexivity|]. rewrite IH. apply orb_assoc.
Qed.

Lemma count_char_app c a b : count_char c (a ++ b) = count_char c a + count_char c b.
Proof. induction a as [|x a IH]; simpl; [reflexivity | rewrite IH; lia]. Qed.

Lemma count_char_absent c a : contains a c = false -> count_char c a = 0.
Proof.
  induction a as [|x a IH]; simpl; [reflexivity|].
  intros H. apply orb_false_iff in H as [Hx Ha]. rewrite Hx, (IH Ha). reflexivity.
Qed.

Lemma contains_join_other c l :
  c <> ","%char ->
  contains (join "," l) c = existsb (fun x => contains x c) l.
Proof.
  intros Hc. induction l as [|x [|y l] IH].
  - reflexivity.
  - simpl. now rewrite orb_false_r.
  - rewrite join_cons, contains_app. cbn [append].
    rewrite contains_cons, IH. destruct (Ascii.eqb "," c) eqn:E.
    + apply Ascii.eqb_eq in E. congruence.
    + reflexivity.
Qed.

Lemma count_join_no_comma l :
  Forall (fun x => contains x "," = false) l ->
  count_char "," (join "," l) = length l - 1.
Proof.
  induction l as [|x [|y l] IH]; intros Hall; [reflexivity| |].
  - inversion Hall; subst. simpl. now apply count_char_absent.
  - inversion Hall as [|? ? Hx Hl]; subst.
    rewrite join_cons, count_char_app, (count_char_absent _ _ Hx).
    simpl count_char. rewrite (IH Hl). simpl. lia.
Qed.

Lemma expected_slot_nonempty o x : expected_slot o = Some x -> x <> EmptyString.
Proof.
  destruct o as [y|]; simpl; [|discriminate].
  destruct (String.eqb y EmptyString) eqn:E; [discriminate|].
  intros H. injection H as <-. apply String.eqb_neq. exact E.
Qed.

Lemma slot_text_absent o : option_map str o = expected_slot None -> slot_text o = EmptyString.
Proof. destruct o; simpl; [discriminate | reflexivity]. Qed.

Lemma collect_err_first l e :
  collect l = Err e ->
  exists pre seg post, l = (pre ++ seg :: post)%list /\
    Forall (fun x => exists v, new x = Ok v) pre /\ new seg = Err e.
Proof.
  induction l as [|x l IH]; simpl; [discriminate|].
  destruct (new x) as [v|e'] eqn:Ex.
  - destruct (collect l) as [vs|e'] eqn:El; [discriminate|].
    intros H. injection H as ->. destruct (IH eq_refl) as (pre & seg & post & -> & Hpre & Hseg).
    exists (x :: pre), seg, post. split; [reflexivity|]. split; [|exact Hseg].
    constructor; eauto.
  - intros H. injection H as ->. exists [], x, l. repeat split; auto.
Qed.

(** A parse fails exactly as validating all segments in order does. *)
Lemma from_gecos_string_collect s :
  match from_gecos_string s with
  | Ok _ => exists vs, collect (split_comma s) = Ok vs
  | Err e => collect (split_comma s) = Err e
  end.
Proof.
  unfold from_gecos_string. generalize (split_comma s) as l. intros l.
  destruct l as [|a [|b [|c [|d tl]]]]; simpl;
    repeat match goal with
    | |- context [new ?x] => let E := fresh "E" in destruct (new x) eqn:E; simpl
    end;
    try (destruct (collect tl); simpl); eauto.
Qed.

Lemma str_app_nil a : a ++ EmptyString = a.
Proof. induction a as [|x a IH]; simpl; [reflexivity | now rewrite IH]. Qed.

(** The segments [to_gecos_string] writes. *)
Definition written_segments (g : Gecos) : list string :=
  slot_text (full_name g) :: slot_text (room g) :: slot_text (work_phone g) ::
  slot_text (home_phone g) ::
  match map str (other g) with [] => [EmptyString] | _ => map str (other g) end.

Lemma to_gecos_string_segments g :
  to_gecos_string g = Some (join "," (written_segments g)).
Proof. rewrite to_gecos_string_eq, format5_join. reflexivity. Qed.

Lemma written_segments_no_comma g :
  Forall (fun x => contains x "," = false) (written_segments g).
Proof.
  unfold written_segments. repeat constructor; try apply slot_text_no_comma.
  destruct (other g) as [|v o]; [repeat constructor|].
  apply Forall_forall. intros x Hx. apply in_map_iff in Hx as (w & <- & _).
  apply valid_no_comma.
Qed.

Lemma split_written_segments g :
  split_comma (join "," (written_segments g)) = written_segments g.
Proof. apply split_comma_join; [discriminate | apply written_segments_no_comma]. Qed.

Lemma new_slot_text o : exists v, new (slot_text o) = Ok v.
Proof. destruct o as [v|]; simpl; eexists; [apply new_str | reflexivity]. Qed.

Lemma from_written_ok g :
  exists g', from_gecos_string (join "," (written_segments g)) = Ok g'.
Proof.
  pose proof (from_gecos_string_collect (join "," (written_segments g))) as H.
  rewrite split_written_segments in H.
  destruct (from_gecos_string _) as [g'|e]; [eauto|exfalso].
  unfold written_segments in H. simpl in H.
  destruct (new_slot_text (full_name g)) as [v1 E1].
  destruct (new_slot_text (room g)) as [v2 E2].
  destruct (new_slot_text (work_phone g)) as [v3 E3].
  destruct (new_slot_text (home_phone g)) as [v4 E4].
  rewrite E1, E2, E3, E4 in H.
  destruct (other g) as [|v o]; simpl in H; [discriminate H|].
  rewrite new_str in H. change (map str o) with (map str o) in H.
  rewrite collect_map_str in H. discriminate H.
Qed.

Ltac app_norm := repeat (progress (simpl; rewrite ?str_app_assoc)).

(** Writing back a parsed record gives the input, padded with the commas of
    the missing fixed slots. *)
Lemma to_from_padding s g :
  from_gecos_string s = Ok g ->
  to_gecos_string g = Some (s ++ commas (4 - count_char "," s)).
Proof.
  intros Hok. rewrite to_gecos_string_eq. f_equal.
  destruct (from_gecos_string_ok s g Hok) as (H1 & H2 & H3 & H4 & H5).
  remember (split_comma s) as l eqn:Hl.
  assert (Hs : s = join "," l) by (subst l; symmetry; apply join_split_comma).
  assert (Hc : count_char "," s = length l - 1)
    by (subst l; rewrite split_comma_length; lia).
  assert (Hne : l <> []) by (subst l; apply split_comma_nonempty).
  rewrite Hc, Hs. clear Hl Hs Hc Hok.
  destruct l as [|a [|b [|c [|d [|e tl]]]]]; [congruence| ..];
    cbn [nth_error skipn] in H1, H2, H3, H4, H5;
    repeat match goal with
    | H : option_map str ?o = expected_slot (Some _) |- _ =>
        rewrite (slot_text_expected _ _ H); clear H
    | H : option_map str ?o = expected_slot None |- _ =>
        rewrite (slot_text_absent _ H); clear H
    end; rewrite H5.
  - unfold format5, join. simpl. reflexivity.
  - unfold format5, join. app_norm. reflexivity.
  - unfold format5, join. app_norm. reflexivity.
  - unfold format5, join. app_norm. reflexivity.
  - rewrite format5_join. simpl. now rewrite str_app_nil.
Qed.

Lemma contains_split_other c s :
  c <> ","%char ->
  contains s c = existsb (fun x => contains x c) (split_comma s).
Proof.
  intros Hc. pose proof (contains_join_other c (split_comma s) Hc) as H.
  rewrite join_split_comma in H. exact H.
Qed.

Lemma in_non_comma c : In c INVALID_CHARS -> c <> ","%char -> In c NON_COMMA_INVALID_CHARS.
Proof. intros [<-|H] Hc; [congruence | exact H]. Qed.

Lemma from_first_bad_segment s e :
  from_gecos_string s = Err e ->
  exists pre seg post, split_comma s = (pre ++ seg :: post)%list /\
    Forall (fun x => exists v, new x = Ok v) pre /\ new seg = Err e.
Proof.
  intros H. pose proof (from_gecos_string_collect s) as Hc. rewrite H in Hc.
  now apply collect_err_first.
Qed.

(** * Further properties of the code *)

(** [PartialEq] compares the texts, and two sanitized strings are equal
    exactly when it says so. *)
Theorem gss_eqb_iff (a b : GecosSanitizedString) : gss_eqb a b = true <-> a = b.
Proof.
  unfold gss_eqb. rewrite String.eqb_eq. split; [apply gss_eq | intros ->; reflexivity].
Qed.

(** Converting the rendered text of a sanitized string back with [TryFrom]
    succeeds and gives the same value; so does converting the [&String] view. *)
Theorem try_from_rendered (v : GecosSanitizedString) :
  try_from (to_string v) = Ok v /\ try_from (as_string_ref v) = Ok v.
Proof. split; apply new_str. Qed.

(** A parse error never names the comma: segments never hold one. *)
Theorem from_gecos_string_error_not_comma (s : string) (c : ascii)
  (Herr : from_gecos_string s = Err (IllegalPasswdChar c)) :
  c <> ","%char.
Proof.
  destruct (from_first_bad_segment s _ Herr) as (pre & seg & post & Hs & _ & Hseg).
  apply new_err, probe_some_in in Hseg as [_ Hc].
  assert (Hno : contains seg "," = false).
  { apply (split_comma_segments s). rewrite Hs. apply in_or_app. right. now left. }
  intros ->. congruence.
Qed.

Lemma from_gecos_string_error_not_comma_witness :
  from_gecos_string "a,b=c" = Err (IllegalPasswdChar "=") /\ "="%char <> ","%char.
Proof.
  assert (H : from_gecos_string "a,b=c" = Err (IllegalPasswdChar "=")) by reflexivity.
  split; [exact H | exact (from_gecos_string_error_not_comma _ _ H)].
Defined.

(** A failed parse reports the error of the first segment, from the left,
    that fails validation; every segment before it is valid. *)
Theorem from_gecos_string_first_bad_segment (s : string) (e : GecosError)
  (Herr : from_gecos_string s = Err e) :
  exists pre seg post, split_comma s = (pre ++ seg :: post)%list /\
    Forall (fun x => exists v, new x = Ok v) pre /\ new seg = Err e.
Proof. exact (from_first_bad_segment s e Herr). Qed.

Lemma from_gecos_string_first_bad_segment_witness :
  from_gecos_string "a,b=c,d:e" = Err (IllegalPasswdChar "=") /\
  exists pre seg post, split_comma "a,b=c,d:e" = (pre ++ seg :: post)%list /\
    Forall (fun x => exists v, new x = Ok v) pre /\
    new seg = Err (IllegalPasswdChar "=").
Proof.
  assert (H : from_gecos_string "a,b=c,d:e" = Err (IllegalPasswdChar "="))
    by reflexivity.
  split; [exact H | exact (from_gecos_string_first_bad_segment _ _ H)].
Defined.

(** A parsed record never holds an empty string in a fixed slot. *)
Theorem from_gecos_string_no_empty_slot (s : string) (g : Gecos)
  (Hok : from_gecos_string s = Ok g) :
  Forall (fun o => forall v, o = Some v -> str v <> EmptyString)
         [full_name g; room g; work_phone g; home_phone g].
Proof.
  destruct (from_gecos_string_ok s g Hok) as (H1 & H2 & H3 & H4 & _).
  repeat constructor; intros v Hv;
    [rewrite Hv in H1 | rewrite Hv in H2 | rewrite Hv in H3 | rewrite Hv in H4];
    eapply expected_slot_nonempty; symmetry; eassumption.
Qed.

Lemma from_gecos_string_no_empty_slot_witness :
  from_gecos_string "Some Person,,,Home phone,Other" = Ok sample_record /\
  Forall (fun o => forall v, o = Some v -> str v <> EmptyString)
         [full_name sample_record; room sample_record;
          work_phone sample_record; home_phone sample_record].
Proof.
  assert (H : from_gecos_string "Some Person,,,Home phone,Other" = Ok sample_record)
    by reflexivity.
  split; [exact H | exact (from_gecos_string_no_empty_slot _ _ H)].
Defined.

(** A parsed record has one [other] element per comma beyond the third. *)
Theorem from_gecos_string_other_length (s : string) (g : Gecos)
  (Hok : from_gecos_string s = Ok g) :
  length (other g) = count_char "," s - 3.
Proof.
  destruct (from_gecos_string_ok s g Hok) as (_ & _ & _ & _ & H5).
  rewrite <- (length_map str), H5, length_skipn, split_comma_length. lia.
Qed.

Lemma from_gecos_string_other_length_witness :
  from_gecos_string ",b,,,e," = Ok sample_trailing_record /\
  length (other sample_trailing_record) = count_char "," ",b,,,e," - 3.
Proof.
  assert (H : from_gecos_string ",b,,,e," = Ok sample_trailing_record) by reflexivity.
  split; [exact H | exact (from_gecos_string_other_length _ _ H)].
Defined.

(** Parsing succeeds exactly when the input holds none of the forbidden
    characters other than the comma (colon, equals, backslash, quote,
    newline). *)
Theorem from_gecos_string_accepts_iff (s : string) :
  (exists g, from_gecos_string s = Ok g) <->
  forall c, In c NON_COMMA_INVALID_CHARS -> contains s c = false.
Proof.
  assert (Hnc : forall c, In c NON_COMMA_INVALID_CHARS -> c <> ","%char).
  { intros c Hc. simpl in Hc. intros ->.
    repeat destruct Hc as [Hc|Hc]; try discriminate Hc; exact Hc. }
  split.
  - intros [g Hok] c Hc. destruct (contains s c) eqn:E; [exfalso|reflexivity].
    rewrite (contains_split_other c s (Hnc c Hc)) in E.
    apply existsb_exists in E as (seg & Hseg & Hsc).
    destruct (proj2 (from_gecos_string_err_iff s)) as [e He].
    + exists seg. split; [exact Hseg|]. apply new_err_iff_forbidden.
      exists c. split; [right; exact Hc | exact Hsc].
    + congruence.
  - intros Hfree. destruct (from_gecos_string s) as [g|e] eqn:Hf; [eauto|exfalso].
    destruct (proj1 (from_gecos_string_err_iff s) (ex_intro _ e Hf))
      as (seg & Hseg & He).
    apply new_err_iff_forbidden in He as (c & Hc & Hsc).
    assert (Hcc : c <> ","%char).
    { intros ->. rewrite (split_comma_segments s seg Hseg) in Hsc. discriminate. }
    pose proof (in_non_comma c Hc Hcc) as Hin.
    pose proof (contains_split_other c s Hcc) as Hx. rewrite (Hfree c Hin) in Hx.
    assert (Ht : existsb (fun x => contains x c) (split_comma s) = true)
      by (apply existsb_exists; eauto).
    congruence.
Qed.

(** Writing back a parsed record gives the input again, followed by one
    comma per fixed slot the input did not reach (none when the input has at
    least four commas). *)
Theorem to_from_gecos_string_pads (s : string) (g : Gecos)
  (Hok : from_gecos_string s = Ok g) :
  to_gecos_string g = Some (s ++ commas (4 - count_char "," s)).
Proof. exact (to_from_padding s g Hok). Qed.

Lemma to_from_gecos_string_pads_witness :
  from_gecos_string "Some Person" = Ok single_name_record /\
  to_gecos_string single_name_record =
    Some ("Some Person" ++ commas (4 - count_char "," "Some Person")).
Proof.
  assert (H : from_gecos_string "Some Person" = Ok single_name_record) by reflexivity.
  split; [exact H | exact (to_from_gecos_string_pads _ _ H)].
Defined.

(** For every record, the written string parses, and writing the parsed
    record again gives the same string: serialization is stable after one
    round trip, even for empty fixed slots and an empty [other]. *)
Theorem to_gecos_string_stable (g : Gecos) :
  exists s g', to_gecos_string g = Some s /\ from_gecos_string s = Ok g' /\
               to_gecos_string g' = Some s.
Proof.
  destruct (from_written_ok g) as [g' Hok].
  exists (join "," (written_segments g)), g'.
  split; [apply to_gecos_string_segments|]. split; [exact Hok|].
  rewrite (to_from_padding _ _ Hok).
  pose proof (split_comma_length (join "," (written_segments g))) as Hlen.
  rewrite split_written_segments in Hlen.
  assert (Hge : length (written_segments g) >= 5).
  { unfold written_segments. destruct (map str (other g)); simpl; lia. }
  replace (4 - count_char "," (join "," (written_segments g))) with 0 by lia.
  simpl. now rewrite str_app_nil.
Qed.

(** The written string holds four commas plus one between each two
    consecutive [other] elements. *)
Theorem to_gecos_string_comma_count (g : Gecos) :
  exists s, to_gecos_string g = Some s /\
            count_char "," s = 4 + (length (other g) - 1).
Proof.
  eexists; split; [apply to_gecos_string_segments|].
  rewrite (count_join_no_comma _ (written_segments_no_comma g)).
  unfold written_segments. destruct (other g) as [|v o]; simpl; [reflexivity|].
  rewrite length_map. lia.
Qed.
